(** * gen_blocks.go: the block-registry generator of go-mc

    A shallow embedding of [gen_blocks.go] (package [main]): the [Block]
    record decoded from the catalogue, [downloadInfo],
    [makeBlockDeclaration] and [main].  The generator writes Go source text
    to standard output; the text is modelled as the sequence of [fmt] and
    [format] calls that produce it, so that the [ByID] and [StateID] map
    literals can be read back from the output.

    [uint32] values are integers in [0, 2^32) with the wrap-around of [i++]
    written out; the [for] loop over a state interval carries a bound on the
    number of iterations, and a run that exhausts every bound is a run that
    does not terminate. *)

From Stdlib Require Import ZArith List String Ascii Bool Lia.
From Stdlib Require Import DecimalString.
From Stdlib Require Import Floats.SpecFloat.
From Stdlib Require Import Permutation.
Import ListNotations.
Open Scope string_scope.
Open Scope Z_scope.

(** ** Machine integers *)

Module Uint32.

Definition modulus : Z := 2 ^ 32.

(** [math.MaxUint32] *)
Definition max : Z := 4294967295.

Definition in_range (x : Z) : Prop := 0 <= x <= max.

Definition wrap (x : Z) : Z := x mod modulus.

(** [i++] on a [uint32] *)
Definition incr (i : Z) : Z := wrap (i + 1).

End Uint32.

(** ** Characters that a Rocq string literal cannot hold directly *)

Definition LF : string := String "010"%char EmptyString.
Definition TAB : string := String "009"%char EmptyString.
Definition DQUOTE : string := String "034"%char EmptyString.

(** ** The catalogue record *)

(** A [float64] value: a zero, an infinity, a NaN, or sign, mantissa and
    exponent of a finite number. *)
Definition float64 : Type := spec_float.

(** [type Block struct]; the [json] tags name the catalogue's fields. *)
Record Block : Type := {
  ID : Z;                        (* uint32, "id" *)
  DisplayName : string;          (* "displayName" *)
  Name : string;                 (* "name" *)
  Hardness : float64;             (* float64, "hardness" *)
  Diggable : bool;               (* "diggable" *)
  DropIDs : list Z;              (* []uint32, "drops" *)
  NeedsTools : list (Z * bool);  (* map[uint32]bool, "harvestTools" *)
  MinStateID : Z;                (* uint32, "minStateId" *)
  MaxStateID : Z;                (* uint32, "maxStateId" *)
  Transparent : bool;            (* "transparent" *)
  FilterLightLevel : Z;          (* int, "filterLight" *)
  EmitLightLevel : Z             (* int, "emitLight" *)
}.

(** What the Go types of the interval fields guarantee of a decoded record. *)
Definition wf_Block (b : Block) : Prop :=
  Uint32.in_range (MinStateID b) /\ Uint32.in_range (MaxStateID b).

(** ** Results with errors *)

(** A Go [error], by its message. *)
Definition error : Type := string.

(** [(T, error)]: [inl err] when [err != nil], else [inr v]. *)
Definition result (T : Type) : Type := (error + T)%type.

Definition ret {T : Type} (v : T) : result T := inr v.

Definition bind {T U : Type} (r : result T) (k : T -> result U) : result U :=
  match r with
  | inl err => inl err
  | inr v => k v
  end.

Notation "x <- r ;; k" := (bind r (fun x => k))
  (at level 61, r at next level, right associativity).

(** ** The environment of a run *)

(** The network, and the library functions the generator calls but does not
    define: [http.Get] and the JSON decoder, the order in which
    [reflect]'s [MapRange] visits a map (Go leaves it unspecified, and it can
    differ from run to run), [strcase.ToCamel], [strconv.Quote] and
    [fmt.Sprint] on a [float64]. *)
Record Env : Type := {
  http_Get : string -> result string;
  json_Decode : string -> result (list Block);
  MapRange : list (Z * bool) -> list (Z * bool);
  ToCamel : string -> string;
  Quote : string -> string;
  Sprint_float64 : float64 -> string
}.

Definition infoURL : string :=
  "https://raw.githubusercontent.com/PrismarineJS/minecraft-data/master/data/pc/1.16.2/blocks.json".

(** [func downloadInfo() ([]Block, error)] *)
Definition downloadInfo (env : Env) : result (list Block) :=
  body <- http_Get env infoURL ;;
  data <- json_Decode env body ;;
  ret data.

(** ** The syntax tree of the [var] declaration *)

Inductive Token : Type := INT | FLOAT | STRING | IDENT | VAR.

#[warnings="-register-all"]
Inductive Expr : Type :=
| BasicLit (Kind : Token) (Value : string)
| Ident (IdentName : string)
| ArrayType (Elt : Expr)
| MapType (Key Value : Expr)
| CompositeLit (Typ : Expr) (Elts : list Expr)
| KeyValueExpr (Key Value : Expr).

Record ValueSpec : Type := {
  Names : list string;
  Values : list Expr
}.

(** [&ast.DeclStmt{Decl: &ast.GenDecl{Tok: ..., Specs: ...}}] *)
Record DeclStmt : Type := {
  Tok : Token;
  Specs : list ValueSpec
}.

(** A field of [Block] as [reflect] presents it: its kind with its value. *)
Inductive FieldValue : Type :=
| Uint32Value (v : Z)
| IntValue (v : Z)
| Float64Value (v : float64)
| StringValue (v : string)
| BoolValue (v : bool)
| SliceValue (elem : string) (v : list Z)
| MapValue (key elem : string) (v : list (Z * bool)).

(** [t.Field(i)] and [reflect.ValueOf(b).Field(i)], in declaration order. *)
Definition fields (b : Block) : list (string * FieldValue) :=
  [ ("ID", Uint32Value (ID b));
    ("DisplayName", StringValue (DisplayName b));
    ("Name", StringValue (Name b));
    ("Hardness", Float64Value (Hardness b));
    ("Diggable", BoolValue (Diggable b));
    ("DropIDs", SliceValue "uint32" (DropIDs b));
    ("NeedsTools", MapValue "uint32" "bool" (NeedsTools b));
    ("MinStateID", Uint32Value (MinStateID b));
    ("MaxStateID", Uint32Value (MaxStateID b));
    ("Transparent", BoolValue (Transparent b));
    ("FilterLightLevel", IntValue (FilterLightLevel b));
    ("EmitLightLevel", IntValue (EmitLightLevel b)) ].

(** [fmt.Sprint] on an integer and on a [bool] *)
Definition Sprint_int (z : Z) : string := NilZero.string_of_int (Z.to_int z).

Definition Sprint_bool (b : bool) : string := if b then "true" else "false".

(** The [switch ft.Type.Kind()] of [makeBlockDeclaration] *)
Definition field_expr (env : Env) (v : FieldValue) : Expr :=
  match v with
  | Uint32Value n | IntValue n => BasicLit INT (Sprint_int n)
  | Float64Value f => BasicLit FLOAT (Sprint_float64 env f)
  | StringValue s => BasicLit STRING (Quote env s)
  | BoolValue b => BasicLit IDENT (Sprint_bool b)
  | SliceValue elem l =>
      CompositeLit (ArrayType (BasicLit IDENT elem))
        (map (fun x => BasicLit INT (Sprint_int x)) l)
  | MapValue key elem m =>
      CompositeLit (MapType (BasicLit IDENT key) (BasicLit IDENT elem))
        (map (fun kv => KeyValueExpr (BasicLit INT (Sprint_int (fst kv)))
                                     (BasicLit IDENT (Sprint_bool (snd kv))))
             (MapRange env m))
  end.

Definition block_spec (env : Env) (b : Block) : ValueSpec :=
  {| Names := [ToCamel env (Name b)];
     Values := [CompositeLit (Ident "Block")
                  (map (fun f => KeyValueExpr (Ident (fst f)) (field_expr env (snd f)))
                       (fields b))] |}.

(** [func makeBlockDeclaration(blocks []Block) *ast.DeclStmt] *)
Definition makeBlockDeclaration (env : Env) (blocks : list Block) : DeclStmt :=
  {| Tok := VAR; Specs := map (block_spec env) blocks |}.

(** ** Output *)

Inductive Arg : Type :=
| ArgUint (n : Z)
| ArgString (s : string)
| ArgError (e : error).

(** One call that writes to a stream.  [Println ""] also stands for
    [fmt.Println()], which writes the same single line feed. *)
Inductive Write : Type :=
| Println (s : string)
| Printf (format : string) (args : list Arg)
| FormatNode (node : DeclStmt).

(** The format strings of [main] *)
Definition error_format : string := "Error: %v" ++ LF.
Definition ByID_format : string := "  %d: &%s," ++ LF.
Definition StateID_format : string := "  %d: %d," ++ LF.

Definition ByID_line (env : Env) (b : Block) : Write :=
  Printf ByID_format [ArgUint (ID b); ArgString (ToCamel env (Name b))].

Definition StateID_line (id state : Z) : Write :=
  Printf StateID_format [ArgUint state; ArgUint id].

(** The raw string literal that [main] prints first. *)
Definition preamble : string :=
  concat LF
    [ "// Package block stores information about blocks in Minecraft.";
      "package block";
      "";
      "import (";
      TAB ++ DQUOTE ++ "math" ++ DQUOTE;
      ")";
      "";
      "// BitsPerBlock indicates how many bits are needed to represent all possible";
      "// block states. This value is used to determine the size of the global palette.";
      "var BitsPerBlock = int(math.Ceil(math.Log2(float64(len(StateID)))))";
      "";
      "// ID describes the numeric ID of a block.";
      "type ID uint32";
      "";
      "// Block describes information about a type of block.";
      "type Block struct {";
      TAB ++ "ID          ID";
      TAB ++ "DisplayName string";
      TAB ++ "Name        string";
      "";
      TAB ++ "Hardness   float64";
      TAB ++ "Diggable   bool";
      TAB ++ "DropIDs    []uint32";
      TAB ++ "NeedsTools map[uint32]bool";
      "";
      TAB ++ "MinStateID uint32";
      TAB ++ "MaxStateID uint32";
      "";
      TAB ++ "Transparent      bool";
      TAB ++ "FilterLightLevel int";
      TAB ++ "EmitLightLevel   int";
      "}";
      "";
      "" ].

(** What a finished run leaves behind. *)
Record Outcome : Type := {
  stdout : list Write;
  stderr : list Write;
  exit_code : Z
}.

(** [for i := lo; i <= hi; i++ { fmt.Printf("  %d: %d,\n", i, id) }] with
    [i] a [uint32].  [fuel] bounds the number of times the body runs; [None]
    says the bound was reached with the condition still true. *)
Fixpoint StateID_loop (fuel : nat) (i hi id : Z) : option (list Write) :=
  if i <=? hi then
    match fuel with
    | O => None
    | S fuel' =>
        option_map (cons (StateID_line id i))
                   (StateID_loop fuel' (Uint32.incr i) hi id)
    end
  else Some [].

(** What the same loop has printed after at most [fuel] runs of its body,
    whether or not it has ended by then. *)
Fixpoint StateID_printed (fuel : nat) (i hi id : Z) : list Write :=
  if i <=? hi then
    match fuel with
    | O => []
    | S fuel' => StateID_line id i :: StateID_printed fuel' (Uint32.incr i) hi id
    end
  else [].

(** The body of the second [for _, b := range blocks] of [main]. *)
Definition StateID_block (fuel : nat) (b : Block) : option (list Write) :=
  if MinStateID b =? MaxStateID b then
    Some [StateID_line (ID b) (MinStateID b)]
  else
    StateID_loop fuel (MinStateID b) (MaxStateID b) (ID b).

Fixpoint StateID_range (fuel : nat) (blocks : list Block) : option (list Write) :=
  match blocks with
  | [] => Some []
  | b :: rest =>
      match StateID_block fuel b with
      | None => None
      | Some ws => option_map (app ws) (StateID_range fuel rest)
      end
  end.

(** The first [for _, b := range blocks] of [main]. *)
Definition ByID_range (env : Env) (blocks : list Block) : list Write :=
  map (ByID_line env) blocks.

(** The run that [os.Exit(1)] ends. *)
Definition abort (err : error) : Outcome :=
  {| stdout := [];
     stderr := [Printf error_format [ArgError err]];
     exit_code := 1 |}.

Definition registry (env : Env) (blocks : list Block) (states : list Write) : Outcome :=
  {| stdout :=
       ([ Println preamble;
         FormatNode (makeBlockDeclaration env blocks);
         Println "";
         Println "";
         Println "// ByID is an index of minecraft blocks by their ID.";
         Println "var ByID = map[ID]*Block{" ]
       ++ ByID_range env blocks
       ++ [ Println "}";
            Println "";
            Println "// StateID maps all possible state IDs to a corresponding block ID.";
            Println "var StateID = map[uint32]ID{" ]
       ++ states
       ++ [ Println "}" ])%list;
     stderr := [];
     exit_code := 0 |}.

(** [func main()]: [None] when some interval loop outlives [fuel]. *)
Definition main (fuel : nat) (env : Env) : option Outcome :=
  match downloadInfo env with
  | inl err => Some (abort err)
  | inr blocks => option_map (registry env blocks) (StateID_range fuel blocks)
  end.

(** ** Reading the emitted map literals back *)

(** The entry a line of the [StateID] literal stands for: [state: id]. *)
Definition StateID_entry (w : Write) : option (Z * Z) :=
  match w with
  | Printf format [ArgUint state; ArgUint id] =>
      if String.eqb format StateID_format then Some (state, id) else None
  | _ => None
  end.

(** The entry a line of the [ByID] literal stands for: [id: &Name]. *)
Definition ByID_entry (w : Write) : option (Z * string) :=
  match w with
  | Printf format [ArgUint id; ArgString name] =>
      if String.eqb format ByID_format then Some (id, name) else None
  | _ => None
  end.

Fixpoint collect {A B : Type} (f : A -> option B) (l : list A) : list B :=
  match l with
  | [] => []
  | x :: rest =>
      match f x with
      | Some y => y :: collect f rest
      | None => collect f rest
      end
  end.

Definition StateID_of (out : list Write) : list (Z * Z) := collect StateID_entry out.

Definition ByID_of (out : list Write) : list (Z * string) := collect ByID_entry out.

(** ** The catalogue as the specification reads it *)

(** The integers [lo], [lo + 1], ... ([n] of them). *)
Fixpoint upfrom (n : nat) (lo : Z) : list Z :=
  match n with
  | O => []
  | S n' => lo :: upfrom n' (lo + 1)
  end.

(** The closed interval [[lo, hi]], empty when [hi < lo]. *)
Definition interval (lo hi : Z) : list Z := upfrom (Z.to_nat (hi - lo + 1)) lo.

(** The associations [state: id] a Block owns. *)
Definition block_entries (b : Block) : list (Z * Z) :=
  map (fun s => (s, ID b)) (interval (MinStateID b) (MaxStateID b)).

Definition block_lines (b : Block) : list Write :=
  map (StateID_line (ID b)) (interval (MinStateID b) (MaxStateID b)).


(** The number of state IDs a Block declares: [MaxStateID - MinStateID + 1]. *)
Definition state_count (b : Block) : Z := MaxStateID b - MinStateID b + 1.

Definition total_states (blocks : list Block) : Z :=
  fold_right (fun b acc => state_count b + acc) 0 blocks.

Definition owns (b : Block) (s : Z) : Prop := MinStateID b <= s <= MaxStateID b.

(** A Block whose bounds are the wrong way round. *)
Definition inverted (b : Block) : Prop := MaxStateID b < MinStateID b.

(** No state belongs to both Blocks. *)
Definition disjoint (a b : Block) : Prop := forall s, owns a s -> ~ owns b s.

(** The interval loop of [b] comes to an end: a proper interval stops short
    of [math.MaxUint32], where [i++] would wrap to [0]. *)
Definition loop_safe (b : Block) : Prop :=
  MinStateID b < MaxStateID b -> MaxStateID b < Uint32.max.

(** Iterations that suffice for every interval loop of the catalogue. *)
Fixpoint fuel_needed (blocks : list Block) : nat :=
  match blocks with
  | [] => O
  | b :: rest => Nat.max (Z.to_nat (state_count b)) (fuel_needed rest)
  end.

(** ** Sample catalogues *)

Definition state_block (id lo hi : Z) : Block :=
  {| ID := id;
     DisplayName := "Stone";
     Name := "stone";
     Hardness := S754_finite false 3 (-1);
     Diggable := true;
     DropIDs := [1];
     NeedsTools := [(585, true); (590, true)];
     MinStateID := lo;
     MaxStateID := hi;
     Transparent := false;
     FilterLightLevel := 15;
     EmitLightLevel := 0 |}.

(** A run in which the download and the decoding succeed with [blocks]. *)
Definition serving (blocks : list Block) : Env :=
  {| http_Get := fun _ => inr "[...]";
     json_Decode := fun _ => inr blocks;
     MapRange := fun m => m;
     ToCamel := fun s => s;
     Quote := fun s => DQUOTE ++ s ++ DQUOTE;
     Sprint_float64 := fun _ => "1.5" |}.

(** The same run with the other iteration order of a two-entry map. *)
Definition serving_reversed (blocks : list Block) : Env :=
  {| http_Get := fun _ => inr "[...]";
     json_Decode := fun _ => inr blocks;
     MapRange := fun m => rev m;
     ToCamel := fun s => s;
     Quote := fun s => DQUOTE ++ s ++ DQUOTE;
     Sprint_float64 := fun _ => "1.5" |}.

(** A run in which [http.Get] fails. *)
Definition unreachable : Env :=
  {| http_Get := fun _ => inl "dial tcp: connection refused";
     json_Decode := fun _ => inr [state_block 1 0 0];
     MapRange := fun m => m;
     ToCamel := fun s => s;
     Quote := fun s => s;
     Sprint_float64 := fun _ => "1.5" |}.

(** A run in which the payload does not decode. *)
Definition malformed : Env :=
  {| http_Get := fun _ => inr "<html>";
     json_Decode := fun _ => inl "invalid character '<' looking for beginning of value";
     MapRange := fun m => m;
     ToCamel := fun s => s;
     Quote := fun s => s;
     Sprint_float64 := fun _ => "1.5" |}.

(** A Block whose interval ends at [math.MaxUint32]. *)
Definition top_pair : Block := state_block 1 4294967294 4294967295.

Definition whole_range : Block := state_block 1 0 4294967295.

Definition top_point : Block := state_block 9 4294967295 4294967295.

(** Two Blocks with disjoint intervals, the second ending at [math.MaxUint32]. *)
Definition top_catalogue : list Block :=
  [state_block 1 0 0; state_block 2 4294967290 4294967295].

(** The catalogue of the specification's two-Block scenario. *)
Definition two_blocks : list Block := [state_block 1 0 3; state_block 2 4 4].

(** The catalogue of the specification's overlap scenario. *)
Definition overlapping : list Block := [state_block 1 0 3; state_block 2 2 5].

(** The number of lines the second loop of [main] prints for a Block: none
    when its bounds are the wrong way round. *)
Definition emitted_count (b : Block) : Z := Z.max 0 (state_count b).

Definition total_emitted (blocks : list Block) : Z :=
  fold_right (fun b acc => emitted_count b + acc) 0 blocks.

(** The identifiers a [var] declaration introduces, in order. *)
Definition declared_names (d : DeclStmt) : list string := flat_map Names (Specs d).

(** The element of a [NeedsTools] literal that stands for one entry of the map. *)
Definition tool_literal (kv : Z * bool) : Expr :=
  KeyValueExpr (BasicLit INT (Sprint_int (fst kv))) (BasicLit IDENT (Sprint_bool (snd kv))).

(** A catalogue with an inverted Block and a single state at [math.MaxUint32]. *)
Definition edge_blocks : list Block :=
  [state_block 1 0 3; state_block 7 5 2; state_block 9 4294967295 4294967295].

(** *** Reading the emitted [type Block struct] back *)

(** The pieces of [s] between occurrences of the character [c]. *)
Fixpoint split_on (c : ascii) (s : string) : list string :=
  match s with
  | EmptyString => [EmptyString]
  | String a rest =>
      if Ascii.eqb a c then EmptyString :: split_on c rest
      else match split_on c rest with
           | [] => [String a EmptyString]
           | w :: ws => String a w :: ws
           end
  end.

(** [s] up to its first space, and what follows the spaces after it. *)
Fixpoint first_word (s : string) : string :=
  match s with
  | EmptyString => EmptyString
  | String a rest => if Ascii.eqb a " "%char then EmptyString else String a (first_word rest)
  end.

Fixpoint skip_spaces (s : string) : string :=
  match s with
  | String a rest => if Ascii.eqb a " "%char then skip_spaces rest else s
  | EmptyString => EmptyString
  end.

Fixpoint after_word (s : string) : string :=
  match s with
  | EmptyString => EmptyString
  | String a rest => if Ascii.eqb a " "%char then skip_spaces rest else after_word rest
  end.

(** A line [<TAB>name   type] of a struct body, as name and type. *)
Definition field_decl (line : string) : option (string * string) :=
  match line with
  | String a rest =>
      if Ascii.eqb a "009"%char then Some (first_word rest, after_word rest) else None
  | EmptyString => None
  end.

Fixpoint drop_through (opening : string) (ls : list string) : list string :=
  match ls with
  | [] => []
  | l :: rest => if String.eqb l opening then rest else drop_through opening rest
  end.

Fixpoint take_until (closing : string) (ls : list string) : list string :=
  match ls with
  | [] => []
  | l :: rest => if String.eqb l closing then [] else l :: take_until closing rest
  end.

(** The fields of the [type Block struct] that the preamble declares, each
    with its type, in order. *)
Definition preamble_fields : list (string * string) :=
  collect field_decl
    (take_until "}" (drop_through "type Block struct {" (split_on "010"%char preamble))).

(** Whether a literal is of the form a value of the Go type [ty] is written
    in: an integer, a floating-point or a string literal, [true] or [false],
    or a composite literal of that slice or map type. *)
Definition literal_fits (ty : string) (e : Expr) : bool :=
  match e with
  | BasicLit INT _ => String.eqb ty "ID" || String.eqb ty "uint32" || String.eqb ty "int"
  | BasicLit FLOAT _ => String.eqb ty "float64"
  | BasicLit STRING _ => String.eqb ty "string"
  | BasicLit IDENT v => String.eqb ty "bool" && (String.eqb v "true" || String.eqb v "false")
  | CompositeLit (ArrayType (BasicLit IDENT elt)) _ => String.eqb ty ("[]" ++ elt)
  | CompositeLit (MapType (BasicLit IDENT key) (BasicLit IDENT elt)) _ =>
      String.eqb ty ("map[" ++ key ++ "]" ++ elt)
  | _ => false
  end.

(** Whether a key/value element of a struct literal sets the field [decl]. *)
Definition sets_field (decl : string * string) (e : Expr) : bool :=
  match e with
  | KeyValueExpr (Ident key) value => String.eqb key (fst decl) && literal_fits (snd decl) value
  | _ => false
  end.

Fixpoint forallb2 {A B : Type} (f : A -> B -> bool) (l1 : list A) (l2 : list B) : bool :=
  match l1, l2 with
  | [], [] => true
  | x :: r1, y :: r2 => f x y && forallb2 f r1 r2
  | _, _ => false
  end.

(** Closes range facts about concrete Blocks. *)
Ltac solve_uint32 :=
  unfold wf_Block, inverted, owns, loop_safe, Uint32.in_range, Uint32.max; cbn; lia.

(** ** Machine integers: facts *)

Lemma incr_below_max (i : Z) : 0 <= i < Uint32.max -> Uint32.incr i = i + 1.
Proof.
  intros Hi. unfold Uint32.incr, Uint32.wrap, Uint32.modulus, Uint32.max in *.
  apply Z.mod_small. lia.
Qed.

Lemma incr_in_range (i : Z) : Uint32.in_range i -> Uint32.in_range (Uint32.incr i).
Proof.
  intros _. unfold Uint32.in_range, Uint32.incr, Uint32.wrap, Uint32.modulus, Uint32.max.
  pose proof (Z.mod_pos_bound (i + 1) (2 ^ 32)). lia.
Qed.

(** ** Intervals *)

Lemma In_upfrom (n : nat) (lo s : Z) : In s (upfrom n lo) <-> lo <= s < lo + Z.of_nat n.
Proof.
  revert lo. induction n as [|n IH]; intros lo; simpl.
  - lia.
  - rewrite IH. lia.
Qed.

Lemma length_upfrom (n : nat) (lo : Z) : List.length (upfrom n lo) = n.
Proof. revert lo. induction n as [|n IH]; intros lo; simpl; [reflexivity | now rewrite IH]. Qed.

Lemma In_interval (lo hi s : Z) : In s (interval lo hi) <-> lo <= s <= hi.
Proof. unfold interval. rewrite In_upfrom. lia. Qed.

Lemma length_interval (lo hi : Z) : lo <= hi + 1 -> Z.of_nat (List.length (interval lo hi)) = hi - lo + 1.
Proof. intros H. unfold interval. rewrite length_upfrom. lia. Qed.

Lemma interval_inverted (lo hi : Z) : hi < lo -> interval lo hi = [].
Proof.
  intros H. unfold interval.
  replace (Z.to_nat (hi - lo + 1)) with O by lia. reflexivity.
Qed.

Lemma interval_cons (lo hi : Z) : lo <= hi -> interval lo hi = lo :: interval (lo + 1) hi.
Proof.
  intros H. unfold interval.
  replace (Z.to_nat (hi - lo + 1)) with (S (Z.to_nat (hi - (lo + 1) + 1))) by lia.
  reflexivity.
Qed.

Lemma interval_point (lo : Z) : interval lo lo = [lo].
Proof. rewrite interval_cons by lia. now rewrite interval_inverted by lia. Qed.

(** ** The interval loop *)

Lemma StateID_loop_inverted (fuel : nat) (lo hi id : Z) :
  hi < lo -> StateID_loop fuel lo hi id = Some [].
Proof.
  intros H. destruct fuel; simpl; destruct (Z.leb_spec lo hi); auto; lia.
Qed.

(** Below [math.MaxUint32] the loop walks the closed interval and stops. *)
Lemma StateID_loop_interval (id hi : Z) (fuel : nat) :
  hi < Uint32.max ->
  forall lo, 0 <= lo -> (Z.to_nat (hi - lo + 1) <= fuel)%nat ->
  StateID_loop fuel lo hi id = Some (map (StateID_line id) (interval lo hi)).
Proof.
  intros Hhi. induction fuel as [|fuel IH]; intros lo Hlo Hfuel.
  - rewrite StateID_loop_inverted by lia. now rewrite interval_inverted by lia.
  - destruct (Z.leb_spec lo hi) as [Hle|Hgt].
    + simpl. destruct (Z.leb_spec lo hi); [|lia].
      rewrite incr_below_max by lia.
      rewrite IH by lia. rewrite (interval_cons lo hi) by lia. reflexivity.
    + rewrite StateID_loop_inverted by lia. now rewrite interval_inverted by lia.
Qed.

(** With [math.MaxUint32] as the upper bound the condition [i <= hi] never
    fails, whatever the number of iterations allowed. *)
Lemma StateID_loop_wraps (id : Z) (fuel : nat) :
  forall i, Uint32.in_range i -> StateID_loop fuel i Uint32.max id = None.
Proof.
  induction fuel as [|fuel IH]; intros i Hi; simpl;
    destruct (Z.leb_spec i Uint32.max) as [_|Hgt];
    try (unfold Uint32.in_range in Hi; lia).
  - reflexivity.
  - rewrite IH by (now apply incr_in_range). reflexivity.
Qed.

(** A loop that ends has printed its whole output by then. *)
Lemma StateID_loop_printed (id hi : Z) (fuel : nat) :
  forall i ws, StateID_loop fuel i hi id = Some ws -> StateID_printed fuel i hi id = ws.
Proof.
  induction fuel as [|fuel IH]; intros i ws H; simpl in *; destruct (i <=? hi);
    try congruence.
  destruct (StateID_loop fuel _ hi id) as [a|] eqn:Ea; [|discriminate].
  inversion H; subst. now rewrite (IH _ a).
Qed.

(** The first lines of the loop over the two topmost states: after
    4294967295 the counter is 0 again. *)
Example top_pair_printed :
  StateID_printed 4 4294967294 4294967295 1 =
    [ StateID_line 1 4294967294; StateID_line 1 4294967295;
      StateID_line 1 0; StateID_line 1 1 ].
Proof. reflexivity. Qed.

(** More iterations do not change the output of a loop that has ended. *)
Lemma StateID_loop_fuel (id hi : Z) (f1 : nat) :
  forall f2 i ws1 ws2,
  StateID_loop f1 i hi id = Some ws1 -> StateID_loop f2 i hi id = Some ws2 -> ws1 = ws2.
Proof.
  induction f1 as [|f1 IH]; intros f2 i ws1 ws2 H1 H2.
  - destruct f2; simpl in *; destruct (i <=? hi); congruence.
  - destruct f2; simpl in *; destruct (i <=? hi); try congruence.
    destruct (StateID_loop f1 _ hi id) as [a|] eqn:Ea; [|discriminate].
    destruct (StateID_loop f2 _ hi id) as [b|] eqn:Eb; [|discriminate].
    simpl in *. inversion H1; inversion H2; subst.
    f_equal. eapply IH; eauto.
Qed.

Lemma StateID_loop_lines (id hi : Z) (fuel : nat) :
  forall i ws, StateID_loop fuel i hi id = Some ws ->
  exists states, ws = map (StateID_line id) states.
Proof.
  induction fuel as [|fuel IH]; intros i ws H; simpl in H; destruct (i <=? hi).
  - discriminate.
  - inversion H. now exists [].
  - destruct (StateID_loop fuel _ hi id) as [a|] eqn:Ea; [|discriminate].
    inversion H; subst. destruct (IH _ _ Ea) as [states ->].
    now exists (i :: states).
  - inversion H. now exists [].
Qed.

(** ** One Block *)

Lemma StateID_block_inverted (fuel : nat) (b : Block) :
  inverted b -> StateID_block fuel b = Some [].
Proof.
  unfold inverted, StateID_block. intros H.
  destruct (Z.eqb_spec (MinStateID b) (MaxStateID b)); [lia|].
  now apply StateID_loop_inverted.
Qed.

Lemma StateID_block_point (fuel : nat) (b : Block) :
  MinStateID b = MaxStateID b ->
  StateID_block fuel b = Some [StateID_line (ID b) (MinStateID b)].
Proof. intros H. unfold StateID_block. now rewrite H, Z.eqb_refl. Qed.

Lemma StateID_block_interval (fuel : nat) (b : Block) :
  wf_Block b -> loop_safe b -> (Z.to_nat (state_count b) <= fuel)%nat ->
  StateID_block fuel b = Some (block_lines b).
Proof.
  unfold wf_Block, Uint32.in_range, loop_safe, state_count, block_lines.
  intros [Hlo Hhi] Hsafe Hfuel.
  destruct (Z.lt_trichotomy (MinStateID b) (MaxStateID b)) as [Hlt|[Heq|Hgt]].
  - unfold StateID_block.
    destruct (Z.eqb_spec (MinStateID b) (MaxStateID b)); [lia|].
    apply StateID_loop_interval; auto; lia.
  - rewrite StateID_block_point by assumption.
    now rewrite <- Heq, interval_point.
  - rewrite StateID_block_inverted by assumption.
    now rewrite interval_inverted.
Qed.

Lemma StateID_block_wraps (fuel : nat) (b : Block) :
  wf_Block b -> MinStateID b < MaxStateID b -> MaxStateID b = Uint32.max ->
  StateID_block fuel b = None.
Proof.
  intros [Hlo _] Hlt Hmax. unfold StateID_block.
  destruct (Z.eqb_spec (MinStateID b) (MaxStateID b)); [lia|].
  rewrite Hmax. now apply StateID_loop_wraps.
Qed.

Lemma StateID_block_fuel (b : Block) (f1 f2 : nat) (ws1 ws2 : list Write) :
  StateID_block f1 b = Some ws1 -> StateID_block f2 b = Some ws2 -> ws1 = ws2.
Proof.
  unfold StateID_block. destruct (MinStateID b =? MaxStateID b).
  - congruence.
  - apply StateID_loop_fuel.
Qed.

Lemma StateID_block_lines (b : Block) (fuel : nat) (ws : list Write) :
  StateID_block fuel b = Some ws ->
  exists states, ws = map (StateID_line (ID b)) states.
Proof.
  unfold StateID_block. destruct (MinStateID b =? MaxStateID b).
  - intros H. inversion H. now exists [MinStateID b].
  - apply StateID_loop_lines.
Qed.

(** A Block that is not inverted contributes a line whenever its loop ends. *)
Lemma StateID_block_nonempty (b : Block) (fuel : nat) (ws : list Write) :
  StateID_block fuel b = Some ws -> ~ inverted b -> ws <> [].
Proof.
  unfold StateID_block, inverted. intros H Hn.
  destruct (Z.eqb_spec (MinStateID b) (MaxStateID b)).
  - inversion H. discriminate.
  - destruct fuel; simpl in H; destruct (Z.leb_spec (MinStateID b) (MaxStateID b)); try lia.
    + discriminate.
    + destruct (StateID_loop fuel _ _ _); [|discriminate].
      inversion H. discriminate.
Qed.

(** ** The whole catalogue *)

Lemma StateID_range_app (fuel : nat) (l1 l2 : list Block) :
  StateID_range fuel (l1 ++ l2) =
  match StateID_range fuel l1 with
  | None => None
  | Some ws => option_map (app ws) (StateID_range fuel l2)
  end.
Proof.
  induction l1 as [|b l1 IH]; simpl.
  - destruct (StateID_range fuel l2); reflexivity.
  - destruct (StateID_block fuel b) as [ws|]; [|reflexivity].
    rewrite IH. destruct (StateID_range fuel l1) as [ws1|]; [|reflexivity].
    destruct (StateID_range fuel l2) as [ws2|]; simpl; [|reflexivity].
    now rewrite app_assoc.
Qed.

Lemma StateID_range_interval (fuel : nat) (blocks : list Block) :
  Forall wf_Block blocks -> Forall loop_safe blocks ->
  (fuel_needed blocks <= fuel)%nat ->
  StateID_range fuel blocks = Some (flat_map block_lines blocks).
Proof.
  induction blocks as [|b rest IH]; intros Hwf Hsafe Hfuel; simpl in *.
  - reflexivity.
  - inversion Hwf; inversion Hsafe; subst.
    rewrite StateID_block_interval by (auto; lia).
    rewrite IH by (auto; lia). reflexivity.
Qed.

Lemma StateID_range_wraps (fuel : nat) (blocks : list Block) (b : Block) :
  In b blocks -> wf_Block b -> MinStateID b < MaxStateID b ->
  MaxStateID b = Uint32.max -> StateID_range fuel blocks = None.
Proof.
  intros Hin Hwf Hlt Hmax. induction blocks as [|c rest IH]; simpl in *.
  - contradiction.
  - destruct Hin as [->|Hin].
    + now rewrite StateID_block_wraps.
    + destruct (StateID_block fuel c); [|reflexivity].
      now rewrite IH.
Qed.

Lemma StateID_range_fuel (blocks : list Block) (f1 f2 : nat) :
  forall ws1 ws2,
  StateID_range f1 blocks = Some ws1 -> StateID_range f2 blocks = Some ws2 -> ws1 = ws2.
Proof.
  induction blocks as [|b rest IH]; simpl; intros ws1 ws2 H1 H2.
  - congruence.
  - destruct (StateID_block f1 b) as [a1|] eqn:E1; [|discriminate].
    destruct (StateID_block f2 b) as [a2|] eqn:E2; [|discriminate].
    destruct (StateID_range f1 rest) as [r1|]; [|discriminate].
    destruct (StateID_range f2 rest) as [r2|]; [|discriminate].
    simpl in *. inversion H1; inversion H2; subst.
    f_equal; [eapply StateID_block_fuel; eauto | now apply IH].
Qed.

(** Whether the run ends does not depend on the bound once the bound is
    reached: a larger one gives the same output. *)
Lemma StateID_loop_more (id hi : Z) (f1 : nat) :
  forall f2 i ws, (f1 <= f2)%nat ->
  StateID_loop f1 i hi id = Some ws -> StateID_loop f2 i hi id = Some ws.
Proof.
  induction f1 as [|f1 IH]; intros f2 i ws Hle H; simpl in H.
  - destruct f2; simpl; destruct (i <=? hi); congruence.
  - destruct f2; [lia|]. simpl. destruct (i <=? hi); [|assumption].
    destruct (StateID_loop f1 _ hi id) as [a|] eqn:Ea; [|discriminate].
    now rewrite (IH f2 _ a) by (auto; lia).
Qed.

Lemma StateID_range_more (blocks : list Block) (f1 f2 : nat) (ws : list Write) :
  (f1 <= f2)%nat ->
  StateID_range f1 blocks = Some ws -> StateID_range f2 blocks = Some ws.
Proof.
  intros Hle. revert ws. induction blocks as [|b rest IH]; simpl; intros ws H.
  - assumption.
  - destruct (StateID_block f1 b) as [a|] eqn:Ea; [|discriminate].
    assert (StateID_block f2 b = Some a) as ->.
    { unfold StateID_block in *. destruct (MinStateID b =? MaxStateID b); [assumption|].
      now apply StateID_loop_more with f1. }
    destruct (StateID_range f1 rest) as [r|]; [|discriminate].
    now rewrite (IH r).
Qed.

Lemma StateID_range_lines (fuel : nat) (blocks : list Block) :
  forall ws, StateID_range fuel blocks = Some ws ->
  exists entries, ws = map (fun e => StateID_line (snd e) (fst e)) entries.
Proof.
  induction blocks as [|b rest IH]; simpl; intros ws H.
  - inversion H. now exists [].
  - destruct (StateID_block fuel b) as [a|] eqn:Ea; [|discriminate].
    destruct (StateID_range fuel rest) as [r|]; [|discriminate].
    inversion H; subst.
    destruct (StateID_block_lines _ _ _ Ea) as [states ->].
    destruct (IH _ eq_refl) as [entries ->].
    exists (map (fun s => (s, ID b)) states ++ entries)%list.
    rewrite map_app, map_map. reflexivity.
Qed.

Lemma StateID_range_inverted (fuel : nat) (blocks : list Block) :
  Forall inverted blocks -> StateID_range fuel blocks = Some [].
Proof.
  induction 1 as [|b rest Hb _ IH]; simpl.
  - reflexivity.
  - now rewrite StateID_block_inverted, IH.
Qed.

Lemma StateID_range_empty (fuel : nat) (blocks : list Block) :
  StateID_range fuel blocks = Some [] -> Forall inverted blocks.
Proof.
  induction blocks as [|b rest IH]; simpl; intros H.
  - constructor.
  - destruct (StateID_block fuel b) as [a|] eqn:Ea; [|discriminate].
    destruct (StateID_range fuel rest) as [r|]; [|discriminate].
    simpl in H. inversion H as [Happ].
    apply app_eq_nil in Happ. destruct Happ as [-> ->].
    constructor; [|now apply IH].
    unfold inverted. destruct (Z.lt_ge_cases (MaxStateID b) (MinStateID b)); [assumption|].
    exfalso. apply (StateID_block_nonempty _ _ _ Ea); [unfold inverted; lia | reflexivity].
Qed.

(** ** Reading the output back: facts *)

Lemma collect_app {A B : Type} (f : A -> option B) (l1 l2 : list A) :
  collect f (l1 ++ l2) = (collect f l1 ++ collect f l2)%list.
Proof.
  induction l1 as [|x l1 IH]; simpl; [reflexivity|].
  destruct (f x); simpl; now rewrite IH.
Qed.

Lemma collect_none {A B : Type} (f : A -> option B) (l : list A) :
  (forall x, In x l -> f x = None) -> collect f l = [].
Proof.
  induction l as [|x l IH]; simpl; intros H; [reflexivity|].
  rewrite (H x) by now left. apply IH. intros y Hy. apply H. now right.
Qed.

Lemma collect_map_some {A B C : Type} (f : A -> option B) (g : C -> A) (h : C -> B) (l : list C) :
  (forall x, f (g x) = Some (h x)) -> collect f (map g l) = map h l.
Proof.
  intros H. induction l as [|x l IH]; simpl; [reflexivity|].
  now rewrite H, IH.
Qed.

Lemma formats_differ : String.eqb StateID_format ByID_format = false.
Proof. reflexivity. Qed.

Lemma StateID_entry_line (id s : Z) : StateID_entry (StateID_line id s) = Some (s, id).
Proof. unfold StateID_entry, StateID_line. now rewrite String.eqb_refl. Qed.

Lemma StateID_entry_ByID_line (env : Env) (b : Block) : StateID_entry (ByID_line env b) = None.
Proof. reflexivity. Qed.

Lemma ByID_entry_line (env : Env) (b : Block) :
  ByID_entry (ByID_line env b) = Some (ID b, ToCamel env (Name b)).
Proof. unfold ByID_entry, ByID_line. now rewrite String.eqb_refl. Qed.

Lemma ByID_entry_StateID_line (id s : Z) : ByID_entry (StateID_line id s) = None.
Proof. reflexivity. Qed.

Lemma StateID_of_ByID_range (env : Env) (blocks : list Block) :
  StateID_of (ByID_range env blocks) = [].
Proof.
  apply collect_none. intros w Hw. unfold ByID_range in Hw.
  apply in_map_iff in Hw. destruct Hw as [b [<- _]]. apply StateID_entry_ByID_line.
Qed.

Lemma ByID_of_ByID_range (env : Env) (blocks : list Block) :
  ByID_of (ByID_range env blocks) = map (fun b => (ID b, ToCamel env (Name b))) blocks.
Proof. apply collect_map_some. apply ByID_entry_line. Qed.

Lemma StateID_of_block_lines (b : Block) : StateID_of (block_lines b) = block_entries b.
Proof. apply collect_map_some. intros s. apply StateID_entry_line. Qed.

Lemma StateID_of_flat_map (blocks : list Block) :
  StateID_of (flat_map block_lines blocks) = flat_map block_entries blocks.
Proof.
  induction blocks as [|b rest IH]; simpl; [reflexivity|].
  unfold StateID_of in *. now rewrite collect_app, IH, <- StateID_of_block_lines.
Qed.

(** Only the lines of the second loop are entries of the [StateID] literal. *)
Lemma StateID_of_registry (env : Env) (blocks : list Block) (states : list Write) :
  StateID_of (stdout (registry env blocks states)) = StateID_of states.
Proof.
  unfold registry, StateID_of; cbn [stdout].
  rewrite !collect_app. fold (StateID_of (ByID_range env blocks)).
  rewrite StateID_of_ByID_range. cbn [collect StateID_entry app].
  now rewrite app_nil_r.
Qed.

(** Only the lines of the first loop are entries of the [ByID] literal. *)
Lemma ByID_of_registry (env : Env) (blocks : list Block) (fuel : nat) (states : list Write) :
  StateID_range fuel blocks = Some states ->
  ByID_of (stdout (registry env blocks states)) =
  map (fun b => (ID b, ToCamel env (Name b))) blocks.
Proof.
  intros H. destruct (StateID_range_lines _ _ _ H) as [entries ->].
  unfold registry, ByID_of; cbn [stdout].
  rewrite !collect_app. fold (ByID_of (ByID_range env blocks)).
  rewrite ByID_of_ByID_range. cbn [collect ByID_entry app].
  rewrite (collect_none ByID_entry (map _ entries)).
  - now rewrite app_nil_r.
  - intros w Hw. apply in_map_iff in Hw. destruct Hw as [e [<- _]].
    apply ByID_entry_StateID_line.
Qed.

Lemma In_block_entries (b : Block) (s id : Z) :
  In (s, id) (block_entries b) <-> owns b s /\ id = ID b.
Proof.
  unfold block_entries, owns. rewrite in_map_iff. split.
  - intros [x [Hx Hin]]. inversion Hx; subst. now rewrite <- In_interval.
  - intros [Hs ->]. exists s. now rewrite In_interval.
Qed.

(** ** [downloadInfo] and [main] *)

Lemma downloadInfo_Get_error (env : Env) (err : error) :
  http_Get env infoURL = inl err -> downloadInfo env = inl err.
Proof. intros H. unfold downloadInfo, bind. now rewrite H. Qed.

Lemma downloadInfo_Decode_error (env : Env) (body : string) (err : error) :
  http_Get env infoURL = inr body -> json_Decode env body = inl err ->
  downloadInfo env = inl err.
Proof. intros H1 H2. unfold downloadInfo, bind. now rewrite H1, H2. Qed.

Lemma main_abort (fuel : nat) (env : Env) (err : error) :
  downloadInfo env = inl err -> main fuel env = Some (abort err).
Proof. intros H. unfold main. now rewrite H. Qed.

Lemma main_registry (fuel : nat) (env : Env) (blocks : list Block) :
  downloadInfo env = inr blocks ->
  Forall wf_Block blocks -> Forall loop_safe blocks ->
  (fuel_needed blocks <= fuel)%nat ->
  main fuel env = Some (registry env blocks (flat_map block_lines blocks)).
Proof.
  intros Hd Hwf Hsafe Hfuel. unfold main. rewrite Hd.
  now rewrite StateID_range_interval.
Qed.

Lemma main_wraps (fuel : nat) (env : Env) (blocks : list Block) (b : Block) :
  downloadInfo env = inr blocks ->
  In b blocks -> wf_Block b -> MinStateID b < MaxStateID b ->
  MaxStateID b = Uint32.max -> main fuel env = None.
Proof.
  intros Hd Hin Hwf Hlt Hmax. unfold main. rewrite Hd.
  now rewrite (StateID_range_wraps fuel blocks b).
Qed.

Lemma downloadInfo_serving (blocks : list Block) : downloadInfo (serving blocks) = inr blocks.
Proof. reflexivity. Qed.

Lemma StateID_range_skip (fuel : nat) (pre post : list Block) (b : Block) :
  inverted b ->
  StateID_range fuel (pre ++ b :: post) = StateID_range fuel (pre ++ post).
Proof.
  intros Hb. rewrite !StateID_range_app. simpl.
  rewrite StateID_block_inverted by assumption.
  destruct (StateID_range fuel pre); [|reflexivity].
  destruct (StateID_range fuel post); reflexivity.
Qed.

Lemma main_inr (fuel : nat) (env : Env) (blocks : list Block) (o : Outcome) :
  downloadInfo env = inr blocks -> main fuel env = Some o ->
  exists states, StateID_range fuel blocks = Some states /\ o = registry env blocks states.
Proof.
  intros Hd. unfold main. rewrite Hd.
  destruct (StateID_range fuel blocks) as [states|]; simpl; [|discriminate].
  intros H. inversion H. now exists states.
Qed.

Lemma In_keys_block_entries (b : Block) (s : Z) :
  In s (map fst (block_entries b)) <-> owns b s.
Proof.
  rewrite in_map_iff. split.
  - intros [[s' id] [Hs Hin]]. simpl in Hs. subst s'.
    now apply In_block_entries in Hin.
  - intros Hs. exists (s, ID b). split; [reflexivity|]. now apply In_block_entries.
Qed.

Lemma count_keys_block_entries (b : Block) (s : Z) :
  owns b s -> (1 <= count_occ Z.eq_dec (map fst (block_entries b)) s)%nat.
Proof.
  intros Hs. apply In_keys_block_entries in Hs.
  apply (count_occ_In Z.eq_dec) in Hs. lia.
Qed.

Lemma In_flat_map_entries (blocks : list Block) (s id : Z) :
  In (s, id) (flat_map block_entries blocks) <->
  exists b, In b blocks /\ owns b s /\ id = ID b.
Proof.
  rewrite in_flat_map. split.
  - intros [b [Hb Hin]]. exists b. now rewrite <- In_block_entries.
  - intros [b [Hb Hin]]. exists b. now rewrite In_block_entries.
Qed.

Lemma length_block_entries (b : Block) :
  MinStateID b <= MaxStateID b + 1 ->
  Z.of_nat (List.length (block_entries b)) = state_count b.
Proof.
  intros H. unfold block_entries, state_count.
  rewrite length_map. now apply length_interval.
Qed.

Lemma length_flat_map_entries (blocks : list Block) :
  Forall (fun b => MinStateID b <= MaxStateID b) blocks ->
  Z.of_nat (List.length (flat_map block_entries blocks)) = total_states blocks.
Proof.
  induction 1 as [|b rest Hb _ IH]; simpl; [reflexivity|].
  rewrite length_app, Nat2Z.inj_add, IH, length_block_entries by lia. reflexivity.
Qed.

(** ** The registry of a catalogue whose loops all end *)

(** X1 (round trip): every state of every interval is associated with its
    Block's ID, and nothing else is, provided no proper interval ends at
    [math.MaxUint32]. *)
Lemma StateID_roundtrip (fuel : nat) (env : Env) (blocks : list Block) :
  downloadInfo env = inr blocks ->
  Forall wf_Block blocks -> Forall loop_safe blocks ->
  (fuel_needed blocks <= fuel)%nat ->
  exists o, main fuel env = Some o /\
    (forall b s, In b blocks -> owns b s -> In (s, ID b) (StateID_of (stdout o))) /\
    (forall s id, In (s, id) (StateID_of (stdout o)) ->
                  exists b, In b blocks /\ owns b s /\ id = ID b).
Proof.
  intros Hd Hwf Hsafe Hfuel.
  exists (registry env blocks (flat_map block_lines blocks)).
  split; [now apply main_registry|].
  rewrite StateID_of_registry, StateID_of_flat_map. split.
  - intros b s Hb Hs. apply In_flat_map_entries. now exists b.
  - intros s id. apply In_flat_map_entries.
Qed.

(** The number of emitted associations is the sum of the interval sizes,
    under the same proviso. *)
Lemma StateID_count (fuel : nat) (env : Env) (blocks : list Block) :
  downloadInfo env = inr blocks ->
  Forall wf_Block blocks -> Forall loop_safe blocks ->
  Forall (fun b => MinStateID b <= MaxStateID b) blocks ->
  (fuel_needed blocks <= fuel)%nat ->
  exists o, main fuel env = Some o /\
    Z.of_nat (List.length (StateID_of (stdout o))) = total_states blocks.
Proof.
  intros Hd Hwf Hsafe Hle Hfuel.
  exists (registry env blocks (flat_map block_lines blocks)).
  split; [now apply main_registry|].
  rewrite StateID_of_registry, StateID_of_flat_map.
  now apply length_flat_map_entries.
Qed.

Lemma NoDup_upfrom (n : nat) (lo : Z) : NoDup (upfrom n lo).
Proof.
  revert lo. induction n as [|n IH]; intros lo; simpl; constructor.
  - rewrite In_upfrom. lia.
  - apply IH.
Qed.

Lemma keys_block_entries (b : Block) :
  map fst (block_entries b) = interval (MinStateID b) (MaxStateID b).
Proof. unfold block_entries. rewrite map_map. simpl. apply map_id. Qed.

Lemma In_keys_flat_map (blocks : list Block) (s : Z) :
  In s (map fst (flat_map block_entries blocks)) -> exists b, In b blocks /\ owns b s.
Proof.
  rewrite in_map_iff. intros [[s' id] [Hs Hin]]. simpl in Hs. subst s'.
  apply In_flat_map_entries in Hin. destruct Hin as [b [Hb [Hs _]]]. now exists b.
Qed.

(** Pairwise disjoint intervals give pairwise distinct keys, so the length
    of the literal is the size of the map it denotes. *)
Lemma StateID_keys_distinct (blocks : list Block) :
  ForallOrdPairs disjoint blocks -> NoDup (map fst (flat_map block_entries blocks)).
Proof.
  induction 1 as [|b rest Hb _ IH]; simpl; [constructor|].
  rewrite map_app. apply NoDup_app.
  - rewrite keys_block_entries. apply NoDup_upfrom.
  - assumption.
  - intros s Hs Hrest. apply In_keys_block_entries in Hs.
    apply In_keys_flat_map in Hrest. destruct Hrest as [c [Hc Hcs]].
    rewrite Forall_forall in Hb. exact (Hb c Hc s Hs Hcs).
Qed.

(** ** The properties of the specification *)

(** C1 (round trip): every state ID in [[MinStateID, MaxStateID]] of a Block
    with [MinStateID <= MaxStateID] is mapped by the emitted [StateID] index
    to that Block's ID.  The generator does this whenever no proper interval
    ends at [math.MaxUint32] ([StateID_roundtrip]); on the catalogue whose
    one Block owns the states 4294967294 and 4294967295 the [uint32] counter
    wraps to 0 after the last state and the loop never ends, so no index is
    emitted, whatever the number of iterations allowed. *)
Theorem StateID_top_pair_never_emitted :
  MinStateID top_pair <= MaxStateID top_pair /\
  wf_Block top_pair /\
  forall fuel, main fuel (serving [top_pair]) = None.
Proof.
  split; [cbn; lia|]. split; [solve_uint32|].
  intros fuel. apply main_wraps with (blocks := [top_pair]) (b := top_pair).
  - reflexivity.
  - now left.
  - solve_uint32.
  - cbn; lia.
  - reflexivity.
Qed.

(** C6 (count): for a catalogue of Blocks with [MinStateID <= MaxStateID]
    and pairwise disjoint intervals, the emitted [StateID] index has as
    many entries as the sum of [MaxStateID - MinStateID + 1].  The
    generator does this whenever no proper interval ends at
    [math.MaxUint32] ([StateID_count], [StateID_keys_distinct]); on
    [top_catalogue] the sum is 7 and the run never ends. *)
Theorem StateID_top_catalogue_never_counted :
  Forall (fun b => MinStateID b <= MaxStateID b) top_catalogue /\
  ForallOrdPairs disjoint top_catalogue /\
  total_states top_catalogue = 7 /\
  forall fuel, main fuel (serving top_catalogue) = None.
Proof.
  split; [repeat constructor; cbn; lia|].
  split.
  { repeat constructor. intros s Ha Hb. unfold owns in *. cbn in *. lia. }
  split; [reflexivity|].
  intros fuel.
  apply main_wraps with (blocks := top_catalogue) (b := state_block 2 4294967290 4294967295).
  - reflexivity.
  - right. now left.
  - solve_uint32.
  - cbn; lia.
  - reflexivity.
Qed.

(** C7 (fail fast): when the fetch or the decoding of the catalogue fails,
    the run ends at once with the error report on standard error and exit
    status 1, and nothing at all is written to standard output. *)
Theorem fetch_failure_emits_nothing (fuel : nat) (env : Env) :
  (exists err, http_Get env infoURL = inl err) \/
  (exists body err, http_Get env infoURL = inr body /\ json_Decode env body = inl err) ->
  exists err,
    downloadInfo env = inl err /\
    main fuel env = Some {| stdout := [];
                            stderr := [Printf error_format [ArgError err]];
                            exit_code := 1 |}.
Proof.
  intros [[err Hget] | [body [err [Hget Hdec]]]]; exists err.
  - pose proof (downloadInfo_Get_error env err Hget) as Hd.
    split; [assumption | now apply main_abort].
  - pose proof (downloadInfo_Decode_error env body err Hget Hdec) as Hd.
    split; [assumption | now apply main_abort].
Qed.

(** A refused connection, and a payload that is not JSON. *)
Lemma fetch_failure_emits_nothing_witness :
  (exists err,
     downloadInfo unreachable = inl err /\
     main 0 unreachable = Some {| stdout := [];
                                  stderr := [Printf error_format [ArgError err]];
                                  exit_code := 1 |}) /\
  (exists err,
     downloadInfo malformed = inl err /\
     main 0 malformed = Some {| stdout := [];
                                stderr := [Printf error_format [ArgError err]];
                                exit_code := 1 |}).
Proof.
  split.
  - apply (fetch_failure_emits_nothing 0 unreachable).
    left. exists "dial tcp: connection refused". reflexivity.
  - apply (fetch_failure_emits_nothing 0 malformed).
    right. exists "<html>", "invalid character '<' looking for beginning of value".
    split; reflexivity.
Defined.

(** C8 (idempotence): two runs of the generator on the same catalogue emit
    the same [ByID] entries and the same [StateID] entries.  The runs may
    differ in the order in which [MapRange] visits a [NeedsTools] map and in
    the iteration bound; they end or fail to end together for one bound,
    and any two runs that end agree on both literals, line for line. *)
Theorem compile_twice_same_indices (env1 env2 : Env) (blocks : list Block) :
  downloadInfo env1 = inr blocks ->
  downloadInfo env2 = inr blocks ->
  (forall s, ToCamel env1 s = ToCamel env2 s) ->
  (forall fuel, main fuel env1 = None <-> main fuel env2 = None) /\
  (forall f1 f2 o1 o2,
     main f1 env1 = Some o1 -> main f2 env2 = Some o2 ->
     ByID_of (stdout o1) = ByID_of (stdout o2) /\
     StateID_of (stdout o1) = StateID_of (stdout o2)).
Proof.
  intros H1 H2 Hcamel. split.
  - intros fuel. unfold main. rewrite H1, H2.
    destruct (StateID_range fuel blocks); simpl; split; congruence.
  - intros f1 f2 o1 o2 Hm1 Hm2.
    destruct (main_inr _ _ _ _ H1 Hm1) as [st1 [Hr1 ->]].
    destruct (main_inr _ _ _ _ H2 Hm2) as [st2 [Hr2 ->]].
    rewrite (ByID_of_registry env1 blocks f1 st1 Hr1).
    rewrite (ByID_of_registry env2 blocks f2 st2 Hr2).
    rewrite !StateID_of_registry.
    rewrite (StateID_range_fuel blocks f1 f2 st1 st2 Hr1 Hr2).
    split; [|reflexivity].
    apply map_ext. intros b. now rewrite Hcamel.
Qed.

(** Two runs on [two_blocks] that visit the [NeedsTools] map in opposite orders. *)
Lemma compile_twice_same_indices_witness :
  (forall fuel, main fuel (serving two_blocks) = None <->
                main fuel (serving_reversed two_blocks) = None) /\
  (forall f1 f2 o1 o2,
     main f1 (serving two_blocks) = Some o1 ->
     main f2 (serving_reversed two_blocks) = Some o2 ->
     ByID_of (stdout o1) = ByID_of (stdout o2) /\
     StateID_of (stdout o1) = StateID_of (stdout o2)).
Proof.
  apply (compile_twice_same_indices (serving two_blocks) (serving_reversed two_blocks) two_blocks).
  - reflexivity.
  - reflexivity.
  - intros s. reflexivity.
Defined.

(** The two runs of the witness end, and differ only in the declaration. *)
Example two_blocks_runs :
  (exists o, main 4 (serving two_blocks) = Some o /\
             StateID_of (stdout o) = [(0, 1); (1, 1); (2, 1); (3, 1); (4, 2)] /\
             ByID_of (stdout o) = [(1, "stone"); (2, "stone")]) /\
  (exists o, main 9 (serving_reversed two_blocks) = Some o) /\
  makeBlockDeclaration (serving two_blocks) two_blocks <>
  makeBlockDeclaration (serving_reversed two_blocks) two_blocks.
Proof.
  split; [|split].
  - eexists. split; [reflexivity|]. split; reflexivity.
  - eexists. reflexivity.
  - discriminate.
Qed.

(** C10 (inverted interval): a Block with [MinStateID > MaxStateID] adds no
    [StateID] entry, the generator carries on with the next Block, and the
    entries of all other Blocks, the error stream and the exit status are
    those of the catalogue without that Block. *)
Theorem inverted_block_is_skipped (fuel : nat) (b : Block) :
  MinStateID b > MaxStateID b ->
  StateID_block fuel b = Some [] /\
  (forall pre post,
     StateID_range fuel (pre ++ b :: post) = StateID_range fuel (pre ++ post)) /\
  (forall env env' pre post,
     downloadInfo env = inr (pre ++ b :: post)%list ->
     downloadInfo env' = inr (pre ++ post)%list ->
     option_map (fun o => (StateID_of (stdout o), stderr o, exit_code o)) (main fuel env) =
     option_map (fun o => (StateID_of (stdout o), stderr o, exit_code o)) (main fuel env')).
Proof.
  intros Hgt. assert (inverted b) as Hb by (unfold inverted; lia).
  split; [now apply StateID_block_inverted|].
  split; [intros pre post; now apply StateID_range_skip|].
  intros env env' pre post Hd Hd'. unfold main. rewrite Hd, Hd'.
  rewrite StateID_range_skip by assumption.
  destruct (StateID_range fuel (pre ++ post)) as [states|]; [|reflexivity].
  cbn [option_map]. now rewrite !StateID_of_registry.
Qed.

(** The Block with bounds 5 and 2. *)
Lemma inverted_block_is_skipped_witness :
  StateID_block 0 (state_block 7 5 2) = Some [] /\
  (forall pre post,
     StateID_range 0 (pre ++ state_block 7 5 2 :: post) = StateID_range 0 (pre ++ post)) /\
  (forall env env' pre post,
     downloadInfo env = inr (pre ++ state_block 7 5 2 :: post)%list ->
     downloadInfo env' = inr (pre ++ post)%list ->
     option_map (fun o => (StateID_of (stdout o), stderr o, exit_code o)) (main 0 env) =
     option_map (fun o => (StateID_of (stdout o), stderr o, exit_code o)) (main 0 env')).
Proof.
  apply (inverted_block_is_skipped 0 (state_block 7 5 2)). cbn. lia.
Defined.

(** C3 as stated (a Block with [MinStateID > MaxStateID] makes compilation
    fail with a range error) does not hold: on the specification's own
    scenario, a Block with bounds 5 and 2, the run ends with exit status 0,
    nothing on standard error, and a registry on standard output whose
    [ByID] literal lists the Block and whose [StateID] literal is empty. *)
Lemma inverted_block_compiles :
  main 0 (serving [state_block 7 5 2]) =
    Some (registry (serving [state_block 7 5 2]) [state_block 7 5 2] []) /\
  exit_code (registry (serving [state_block 7 5 2]) [state_block 7 5 2] []) = 0 /\
  stderr (registry (serving [state_block 7 5 2]) [state_block 7 5 2] []) = [] /\
  ByID_of (stdout (registry (serving [state_block 7 5 2]) [state_block 7 5 2] [])) =
    [(7, "stone")] /\
  StateID_of (stdout (registry (serving [state_block 7 5 2]) [state_block 7 5 2] [])) = [].
Proof. repeat split; reflexivity. Qed.

(** C3, amended: a Block with [MinStateID > MaxStateID] raises no error.
    Provided the loops of the other Blocks end, the run ends with exit
    status 0 and an empty error stream; the emitted [ByID] literal still
    lists the Block, and the [StateID] literal holds the entries of the
    other Blocks only. *)
Theorem inverted_block_raises_no_error
    (fuel : nat) (env : Env) (pre post : list Block) (b : Block) :
  downloadInfo env = inr (pre ++ b :: post)%list ->
  MinStateID b > MaxStateID b ->
  Forall wf_Block (pre ++ post) -> Forall loop_safe (pre ++ post) ->
  (fuel_needed (pre ++ post) <= fuel)%nat ->
  exists o,
    main fuel env = Some o /\
    exit_code o = 0 /\
    stderr o = [] /\
    ByID_of (stdout o) = map (fun c => (ID c, ToCamel env (Name c))) (pre ++ b :: post) /\
    StateID_of (stdout o) = flat_map block_entries (pre ++ post).
Proof.
  intros Hd Hgt Hwf Hsafe Hfuel.
  assert (inverted b) as Hb by (unfold inverted; lia).
  assert (StateID_range fuel (pre ++ b :: post) = Some (flat_map block_lines (pre ++ post))) as Hr.
  { rewrite StateID_range_skip by assumption. now apply StateID_range_interval. }
  exists (registry env (pre ++ b :: post) (flat_map block_lines (pre ++ post))).
  split; [unfold main; now rewrite Hd, Hr|].
  split; [reflexivity|]. split; [reflexivity|]. split.
  - now apply ByID_of_registry with fuel.
  - now rewrite StateID_of_registry, StateID_of_flat_map.
Qed.

(** The Block with bounds 5 and 2 between the two Blocks of [two_blocks]. *)
Lemma inverted_block_raises_no_error_witness :
  exists o,
    main 4 (serving [state_block 1 0 3; state_block 7 5 2; state_block 2 4 4]) = Some o /\
    exit_code o = 0 /\
    stderr o = [] /\
    ByID_of (stdout o) =
      map (fun c => (ID c, ToCamel (serving [state_block 1 0 3; state_block 7 5 2; state_block 2 4 4]) (Name c)))
          ([state_block 1 0 3] ++ state_block 7 5 2 :: [state_block 2 4 4]) /\
    StateID_of (stdout o) =
      flat_map block_entries ([state_block 1 0 3] ++ [state_block 2 4 4]).
Proof.
  apply (inverted_block_raises_no_error 4
           (serving [state_block 1 0 3; state_block 7 5 2; state_block 2 4 4])
           [state_block 1 0 3] [state_block 2 4 4] (state_block 7 5 2)).
  - reflexivity.
  - cbn. lia.
  - repeat constructor; solve_uint32.
  - repeat constructor; solve_uint32.
  - cbn. lia.
Defined.

(** C4 as stated (a catalogue with no state ID at all makes compilation
    fail instead of producing [BitsPerBlock]) does not hold: on the empty
    catalogue the run ends with exit status 0 and prints the preamble with
    the [BitsPerBlock] declaration followed by an empty [StateID] literal. *)
Lemma empty_catalogue_compiles :
  main 0 (serving []) = Some (registry (serving []) [] []) /\
  exit_code (registry (serving []) [] []) = 0 /\
  stderr (registry (serving []) [] []) = [] /\
  hd_error (stdout (registry (serving []) [] [])) = Some (Println preamble) /\
  StateID_of (stdout (registry (serving []) [] [])) = [].
Proof. repeat split; reflexivity. Qed.

(** C4, amended: a catalogue yields no [StateID] entry exactly when every
    Block has [MinStateID > MaxStateID] (the empty catalogue included); the
    run then ends with exit status 0 and an empty error stream, and its
    output starts with the preamble, whose [BitsPerBlock] declaration is the
    same text for every catalogue, and has an empty [StateID] literal. *)
Theorem no_state_still_compiles (fuel : nat) (env : Env) (blocks : list Block) :
  downloadInfo env = inr blocks ->
  (Forall inverted blocks ->
   exists o, main fuel env = Some o /\
             exit_code o = 0 /\
             stderr o = [] /\
             hd_error (stdout o) = Some (Println preamble) /\
             StateID_of (stdout o) = []) /\
  (forall o, main fuel env = Some o -> StateID_of (stdout o) = [] ->
             Forall inverted blocks).
Proof.
  intros Hd. split.
  - intros Hinv. exists (registry env blocks []).
    split; [unfold main; now rewrite Hd, StateID_range_inverted|].
    split; [reflexivity|]. split; [reflexivity|]. split; [reflexivity|].
    now rewrite StateID_of_registry.
  - intros o Hm Hnone.
    destruct (main_inr _ _ _ _ Hd Hm) as [states [Hr ->]].
    rewrite StateID_of_registry in Hnone.
    destruct (StateID_range_lines _ _ _ Hr) as [entries ->].
    unfold StateID_of in Hnone.
    rewrite (collect_map_some StateID_entry _ (fun e => e)) in Hnone.
    + rewrite map_id in Hnone. subst entries. now apply StateID_range_empty with fuel.
    + intros [s id]. apply StateID_entry_line.
Qed.

(** A catalogue of two Blocks, both with their bounds the wrong way round. *)
Lemma no_state_still_compiles_witness :
  exists o, main 0 (serving [state_block 7 5 2; state_block 8 9 1]) = Some o /\
            exit_code o = 0 /\
            stderr o = [] /\
            hd_error (stdout o) = Some (Println preamble) /\
            StateID_of (stdout o) = [].
Proof.
  apply (proj1 (no_state_still_compiles 0 (serving [state_block 7 5 2; state_block 8 9 1])
                  [state_block 7 5 2; state_block 8 9 1] eq_refl)).
  repeat constructor; solve_uint32.
Defined.

Lemma count_keys_member (blocks : list Block) (b : Block) (s : Z) :
  In b blocks -> owns b s ->
  (1 <= count_occ Z.eq_dec (map fst (flat_map block_entries blocks)) s)%nat.
Proof.
  intros Hin Hs. induction blocks as [|c rest IH]; simpl in *; [contradiction|].
  rewrite map_app, count_occ_app. destruct Hin as [->|Hin].
  - pose proof (count_keys_block_entries b s Hs). lia.
  - specialize (IH Hin). lia.
Qed.

Lemma count_keys_twice (pre mid post : list Block) (b1 b2 : Block) (s : Z) :
  owns b1 s -> owns b2 s ->
  (2 <= count_occ Z.eq_dec
          (map fst (flat_map block_entries (pre ++ b1 :: mid ++ b2 :: post))) s)%nat.
Proof.
  intros H1 H2. rewrite flat_map_app, map_app, count_occ_app.
  cbn [flat_map]. rewrite map_app, count_occ_app.
  pose proof (count_keys_block_entries b1 s H1).
  pose proof (count_keys_member (mid ++ b2 :: post) b2 s (in_elt b2 mid post) H2).
  lia.
Qed.

(** C5 as stated (overlapping intervals make compilation fail with an
    overlap error) does not hold: on the specification's own scenario, the
    intervals [[0, 3]] and [[2, 5]], the run ends with exit status 0 and an
    empty error stream, and the [StateID] literal holds the keys 2 and 3
    twice, once for each Block. *)
Lemma overlapping_compiles :
  main 4 (serving overlapping) =
    Some (registry (serving overlapping) overlapping (flat_map block_lines overlapping)) /\
  exit_code (registry (serving overlapping) overlapping (flat_map block_lines overlapping)) = 0 /\
  stderr (registry (serving overlapping) overlapping (flat_map block_lines overlapping)) = [] /\
  StateID_of (stdout (registry (serving overlapping) overlapping
                               (flat_map block_lines overlapping))) =
    [(0, 1); (1, 1); (2, 1); (3, 1); (2, 2); (3, 2); (4, 2); (5, 2)].
Proof. repeat split; reflexivity. Qed.

(** C5, amended: overlapping intervals are not detected.  Provided every
    interval loop ends, the run ends with exit status 0 and an empty error
    stream, and a state ID that two Blocks of the catalogue both own is
    emitted once for each of them, so it is a key of the [StateID] literal
    at least twice. *)
Theorem overlap_is_not_detected
    (fuel : nat) (env : Env) (pre mid post : list Block) (b1 b2 : Block) (s : Z) :
  downloadInfo env = inr (pre ++ b1 :: mid ++ b2 :: post)%list ->
  Forall wf_Block (pre ++ b1 :: mid ++ b2 :: post) ->
  Forall loop_safe (pre ++ b1 :: mid ++ b2 :: post) ->
  (fuel_needed (pre ++ b1 :: mid ++ b2 :: post) <= fuel)%nat ->
  MinStateID b1 <= s <= MaxStateID b1 ->
  MinStateID b2 <= s <= MaxStateID b2 ->
  exists o,
    main fuel env = Some o /\
    exit_code o = 0 /\
    stderr o = [] /\
    In (s, ID b1) (StateID_of (stdout o)) /\
    In (s, ID b2) (StateID_of (stdout o)) /\
    (2 <= count_occ Z.eq_dec (map fst (StateID_of (stdout o))) s)%nat.
Proof.
  intros Hd Hwf Hsafe Hfuel H1 H2.
  exists (registry env (pre ++ b1 :: mid ++ b2 :: post)
                   (flat_map block_lines (pre ++ b1 :: mid ++ b2 :: post))).
  split; [now apply main_registry|].
  split; [reflexivity|]. split; [reflexivity|].
  rewrite StateID_of_registry, StateID_of_flat_map.
  split; [|split].
  - apply In_flat_map_entries. exists b1. split; [apply in_elt | now split].
  - apply In_flat_map_entries. exists b2. split; [|now split].
    apply in_or_app. right. right. apply in_elt.
  - now apply count_keys_twice.
Qed.

(** State 2 of the intervals [[0, 3]] and [[2, 5]]. *)
Lemma overlap_is_not_detected_witness :
  exists o,
    main 4 (serving overlapping) = Some o /\
    exit_code o = 0 /\
    stderr o = [] /\
    In (2, ID (state_block 1 0 3)) (StateID_of (stdout o)) /\
    In (2, ID (state_block 2 2 5)) (StateID_of (stdout o)) /\
    (2 <= count_occ Z.eq_dec (map fst (StateID_of (stdout o))) 2%Z)%nat.
Proof.
  apply (overlap_is_not_detected 4 (serving overlapping) [] [] []
           (state_block 1 0 3) (state_block 2 2 5) 2).
  - reflexivity.
  - repeat constructor; solve_uint32.
  - repeat constructor; solve_uint32.
  - cbn. lia.
  - cbn. lia.
  - cbn. lia.
Defined.

(** The loop of [main] taken by itself: on equal bounds at
    [math.MaxUint32] it would not end, because [i++] wraps to 0 and
    [0 <= 4294967295].  [main] never runs it there: the test
    [b.MinStateID == b.MaxStateID] sends such a Block to the single
    [Printf]. *)
Lemma top_point_loop_never_ends :
  StateID_block 0 top_point = Some [StateID_line 9 4294967295] /\
  forall fuel,
    StateID_loop fuel (MinStateID top_point) (MaxStateID top_point) (ID top_point) = None.
Proof.
  split; [reflexivity|]. intros fuel.
  apply (StateID_loop_wraps 9 fuel 4294967295). solve_uint32.
Qed.

(** Below [math.MaxUint32] the loop of [main], run on equal bounds, prints
    what the single [Printf] prints, as soon as it may run its body once. *)
Lemma point_block_matches_loop (fuel : nat) (b : Block) :
  wf_Block b ->
  MinStateID b = MaxStateID b ->
  MaxStateID b < Uint32.max ->
  (1 <= fuel)%nat ->
  StateID_loop fuel (MinStateID b) (MaxStateID b) (ID b) = StateID_block fuel b /\
  StateID_block fuel b = Some [StateID_line (ID b) (MinStateID b)].
Proof.
  intros [[Hlo _] _] Heq Hmax Hfuel.
  rewrite StateID_block_point by assumption. split; [|reflexivity].
  rewrite StateID_loop_interval by (try assumption; lia).
  now rewrite <- Heq, interval_point.
Qed.



(** ** Further properties of the generator *)

Lemma loop_safe_or_wraps (b : Block) :
  wf_Block b ->
  loop_safe b \/ (MinStateID b < MaxStateID b /\ MaxStateID b = Uint32.max).
Proof.
  unfold wf_Block, Uint32.in_range, loop_safe. intros [_ [_ Hmax]].
  destruct (Z.eq_dec (MaxStateID b) Uint32.max) as [Heq|Hne].
  - destruct (Z.lt_ge_cases (MinStateID b) (MaxStateID b)); [right; auto | left; lia].
  - left. lia.
Qed.

Lemma main_completed_safe (fuel : nat) (env : Env) (blocks : list Block) (o : Outcome) :
  downloadInfo env = inr blocks -> Forall wf_Block blocks ->
  main fuel env = Some o -> Forall loop_safe blocks.
Proof.
  intros Hd Hwf Hm. apply Forall_forall. intros b Hb.
  rewrite Forall_forall in Hwf.
  destruct (loop_safe_or_wraps b (Hwf b Hb)) as [Hs|[Hlt Hmax]]; [assumption|].
  rewrite (main_wraps fuel env blocks b) in Hm by auto. discriminate.
Qed.

Lemma main_completed_registry (fuel : nat) (env : Env) (blocks : list Block) (o : Outcome) :
  downloadInfo env = inr blocks -> Forall wf_Block blocks ->
  main fuel env = Some o ->
  o = registry env blocks (flat_map block_lines blocks).
Proof.
  intros Hd Hwf Hm.
  pose proof (main_completed_safe fuel env blocks o Hd Hwf Hm) as Hsafe.
  destruct (main_inr _ _ _ _ Hd Hm) as [states [Hr ->]]. f_equal.
  apply (StateID_range_fuel blocks fuel (Nat.max fuel (fuel_needed blocks)) _ _ Hr).
  apply StateID_range_interval; auto. lia.
Qed.

Lemma NoDup_app_disjoint {A : Type} (l1 l2 : list A) (x : A) :
  NoDup (l1 ++ l2) -> In x l1 -> In x l2 -> False.
Proof.
  induction l1 as [|a l1 IH]; simpl; intros Hnd H1 H2; [contradiction|].
  inversion Hnd as [|? ? Hnotin Hnd']; subst. destruct H1 as [->|H1].
  - apply Hnotin. apply in_or_app. now right.
  - now apply IH.
Qed.

Lemma In_keys_member (blocks : list Block) (b : Block) (s : Z) :
  In b blocks -> owns b s -> In s (map fst (flat_map block_entries blocks)).
Proof.
  intros Hb Hs. apply in_map_iff. exists (s, ID b). split; [reflexivity|].
  apply In_flat_map_entries. now exists b.
Qed.

Lemma keys_distinct_disjoint (blocks : list Block) :
  NoDup (map fst (flat_map block_entries blocks)) -> ForallOrdPairs disjoint blocks.
Proof.
  induction blocks as [|b rest IH]; simpl; intros Hnd; [constructor|].
  rewrite map_app in Hnd. constructor.
  - apply Forall_forall. intros c Hc s Hbs Hcs.
    apply (NoDup_app_disjoint _ _ s Hnd).
    + now apply In_keys_block_entries.
    + now apply In_keys_member with c.
  - apply IH. now apply NoDup_app_remove_l in Hnd.
Qed.

Lemma length_block_entries_any (b : Block) :
  Z.of_nat (List.length (block_entries b)) = emitted_count b.
Proof.
  unfold block_entries, emitted_count, state_count, interval.
  rewrite length_map, length_upfrom. lia.
Qed.

Lemma length_flat_map_entries_any (blocks : list Block) :
  Z.of_nat (List.length (flat_map block_entries blocks)) = total_emitted blocks.
Proof.
  induction blocks as [|b rest IH]; simpl; [reflexivity|].
  now rewrite length_app, Nat2Z.inj_add, IH, length_block_entries_any.
Qed.

Lemma ByID_names_declared (env : Env) (blocks : list Block) :
  map snd (map (fun b => (ID b, ToCamel env (Name b))) blocks) =
  declared_names (makeBlockDeclaration env blocks).
Proof.
  unfold declared_names, makeBlockDeclaration. cbn [Specs].
  induction blocks as [|b rest IH]; simpl; [reflexivity|]. now rewrite IH.
Qed.

Lemma stdout_registry_last (env : Env) (blocks : list Block) (states : list Write) :
  last (stdout (registry env blocks states)) (Println "") = Println "}".
Proof.
  unfold registry; cbn [stdout]. rewrite !app_assoc. apply last_last.
Qed.

(** X3 (termination): for a decoded catalogue, the generator comes to an
    end exactly when no Block has [MinStateID < MaxStateID = math.MaxUint32];
    and a run that ends has printed the registry of the catalogue, the lines
    of each Block's closed interval in catalogue order, whatever the
    iteration bound it ended within. *)
Theorem main_ends_iff_loops_safe (env : Env) (blocks : list Block) :
  downloadInfo env = inr blocks ->
  Forall wf_Block blocks ->
  ((exists fuel o, main fuel env = Some o) <-> Forall loop_safe blocks) /\
  (forall fuel o, main fuel env = Some o ->
                  o = registry env blocks (flat_map block_lines blocks)).
Proof.
  intros Hd Hwf. split; [split|].
  - intros [fuel [o Hm]]. now apply main_completed_safe with fuel env o.
  - intros Hsafe. exists (fuel_needed blocks), (registry env blocks (flat_map block_lines blocks)).
    apply main_registry; auto.
  - intros fuel o Hm. now apply main_completed_registry with fuel.
Qed.

(** The catalogue [edge_blocks]: its loops end, the one at [math.MaxUint32]
    through the single-state case. *)
Lemma main_ends_iff_loops_safe_witness :
  ((exists fuel o, main fuel (serving edge_blocks) = Some o) <->
   Forall loop_safe edge_blocks) /\
  (forall fuel o, main fuel (serving edge_blocks) = Some o ->
                  o = registry (serving edge_blocks) edge_blocks
                               (flat_map block_lines edge_blocks)).
Proof.
  apply (main_ends_iff_loops_safe (serving edge_blocks) edge_blocks).
  - reflexivity.
  - repeat constructor; solve_uint32.
Defined.

(** X4 (exit status): a run of [main] that ends has either exit status 0,
    an empty error stream and an output that starts with the preamble and
    ends with the closing brace of the [StateID] literal, after a download
    that succeeded; or exit status 1, an empty output and the one-line error
    report, after a download that failed.  Nothing after the download can
    make the run fail. *)
Theorem main_exit_status (fuel : nat) (env : Env) (o : Outcome) :
  main fuel env = Some o ->
  (exists blocks,
     downloadInfo env = inr blocks /\
     exit_code o = 0 /\
     stderr o = [] /\
     hd_error (stdout o) = Some (Println preamble) /\
     last (stdout o) (Println "") = Println "}") \/
  (exists err,
     downloadInfo env = inl err /\
     exit_code o = 1 /\
     stdout o = [] /\
     stderr o = [Printf error_format [ArgError err]]).
Proof.
  intros Hm. destruct (downloadInfo env) as [err|blocks] eqn:Hd.
  - right. exists err. rewrite (main_abort fuel env err Hd) in Hm.
    inversion Hm. repeat split; reflexivity.
  - left. exists blocks. destruct (main_inr _ _ _ _ Hd Hm) as [states [_ ->]].
    split; [reflexivity|]. split; [reflexivity|]. split; [reflexivity|].
    split; [reflexivity|]. apply stdout_registry_last.
Qed.

(** The run on [edge_blocks], which ends with exit status 0. *)
Lemma main_exit_status_witness :
  (exists blocks,
     downloadInfo (serving edge_blocks) = inr blocks /\
     exit_code (registry (serving edge_blocks) edge_blocks (flat_map block_lines edge_blocks)) = 0 /\
     stderr (registry (serving edge_blocks) edge_blocks (flat_map block_lines edge_blocks)) = [] /\
     hd_error (stdout (registry (serving edge_blocks) edge_blocks (flat_map block_lines edge_blocks)))
       = Some (Println preamble) /\
     last (stdout (registry (serving edge_blocks) edge_blocks (flat_map block_lines edge_blocks)))
          (Println "") = Println "}") \/
  (exists err,
     downloadInfo (serving edge_blocks) = inl err /\
     exit_code (registry (serving edge_blocks) edge_blocks (flat_map block_lines edge_blocks)) = 1 /\
     stdout (registry (serving edge_blocks) edge_blocks (flat_map block_lines edge_blocks)) = [] /\
     stderr (registry (serving edge_blocks) edge_blocks (flat_map block_lines edge_blocks))
       = [Printf error_format [ArgError err]]).
Proof.
  apply (main_exit_status 4 (serving edge_blocks)
           (registry (serving edge_blocks) edge_blocks (flat_map block_lines edge_blocks))).
  reflexivity.
Defined.

(** The two-Block catalogue [two_blocks]: each state goes to its owner. *)
Lemma StateID_roundtrip_witness :
  exists o, main 4 (serving two_blocks) = Some o /\
    (forall b s, In b two_blocks -> owns b s -> In (s, ID b) (StateID_of (stdout o))) /\
    (forall s id, In (s, id) (StateID_of (stdout o)) ->
                  exists b, In b two_blocks /\ owns b s /\ id = ID b).
Proof.
  apply (StateID_roundtrip 4 (serving two_blocks) two_blocks).
  - reflexivity.
  - repeat constructor; solve_uint32.
  - repeat constructor; solve_uint32.
  - cbn. lia.
Defined.

Section CompletedRun.

Variable fuel : nat.
Variable env : Env.
Variable blocks : list Block.

Hypothesis Hdownload : downloadInfo env = inr blocks.
Hypothesis Hwf : Forall wf_Block blocks.
Hypothesis Hsafe : Forall loop_safe blocks.
Hypothesis Hfuel : (fuel_needed blocks <= fuel)%nat.

Lemma run_registry :
  main fuel env = Some (registry env blocks (flat_map block_lines blocks)).
Proof. now apply main_registry. Qed.

(** X2 (size of the literal): the [StateID] literal has one line for each
    state of each Block whose bounds are in order and none for a Block whose
    bounds are inverted: its length is the sum of
    [max 0 (MaxStateID - MinStateID + 1)] over the catalogue. *)
Theorem StateID_length :
  exists o, main fuel env = Some o /\
    Z.of_nat (List.length (StateID_of (stdout o))) = total_emitted blocks.
Proof.
  eexists. split; [apply run_registry|].
  rewrite StateID_of_registry, StateID_of_flat_map.
  apply length_flat_map_entries_any.
Qed.

(** X5 (the [ByID] literal): the [ByID] literal has one entry for each Block
    of the catalogue, in catalogue order, pairing the Block's ID with the
    identifier [ToCamel(Name)]; Blocks that share an ID are all listed, so
    the literal has a duplicate key exactly when two Blocks share an ID. *)
Theorem ByID_lists_every_block :
  exists o, main fuel env = Some o /\
    ByID_of (stdout o) = map (fun b => (ID b, ToCamel env (Name b))) blocks /\
    List.length (ByID_of (stdout o)) = List.length blocks /\
    (NoDup (map fst (ByID_of (stdout o))) <-> NoDup (map ID blocks)).
Proof.
  eexists. split; [apply run_registry|].
  assert (ByID_of (stdout (registry env blocks (flat_map block_lines blocks))) =
          map (fun b => (ID b, ToCamel env (Name b))) blocks) as ->.
  { apply ByID_of_registry with fuel. now apply StateID_range_interval. }
  split; [reflexivity|]. split; [apply length_map|].
  rewrite map_map. cbn [fst]. reflexivity.
Qed.

(** X6 (no dangling state): every value of the [StateID] literal is a key
    of the [ByID] literal: a state never resolves to an ID that [ByID] does
    not list. *)
Theorem StateID_values_in_ByID :
  exists o, main fuel env = Some o /\
    forall s id, In (s, id) (StateID_of (stdout o)) ->
                 exists name, In (id, name) (ByID_of (stdout o)).
Proof.
  eexists. split; [apply run_registry|].
  intros s id Hin.
  rewrite StateID_of_registry, StateID_of_flat_map in Hin.
  apply In_flat_map_entries in Hin. destruct Hin as [b [Hb [_ ->]]].
  exists (ToCamel env (Name b)).
  rewrite (ByID_of_registry env blocks fuel) by now apply StateID_range_interval.
  apply in_map_iff. now exists b.
Qed.

(** X7 (no dangling identifier): the output holds the [var] declaration
    built by [makeBlockDeclaration], and the identifiers the [ByID] literal
    takes the address of are the identifiers that declaration introduces,
    in the same order. *)
Theorem ByID_names_are_declared :
  exists o, main fuel env = Some o /\
    In (FormatNode (makeBlockDeclaration env blocks)) (stdout o) /\
    map snd (ByID_of (stdout o)) = declared_names (makeBlockDeclaration env blocks).
Proof.
  eexists. split; [apply run_registry|]. split.
  - unfold registry; cbn [stdout]. right. now left.
  - rewrite (ByID_of_registry env blocks fuel) by now apply StateID_range_interval.
    apply ByID_names_declared.
Qed.

(** X8 (duplicate keys): the keys of the [StateID] literal are pairwise
    distinct exactly when the intervals of the catalogue are pairwise
    disjoint: an overlap is what makes a key appear twice, and nothing else
    does. *)
Theorem StateID_keys_distinct_iff_disjoint :
  exists o, main fuel env = Some o /\
    (NoDup (map fst (StateID_of (stdout o))) <-> ForallOrdPairs disjoint blocks).
Proof.
  eexists. split; [apply run_registry|].
  rewrite StateID_of_registry, StateID_of_flat_map. split.
  - apply keys_distinct_disjoint.
  - apply StateID_keys_distinct.
Qed.

End CompletedRun.

(** The catalogue [edge_blocks]: four states, none for the inverted Block,
    one for the single state at [math.MaxUint32]. *)
Lemma StateID_length_witness :
  exists o, main 4 (serving edge_blocks) = Some o /\
    Z.of_nat (List.length (StateID_of (stdout o))) = total_emitted edge_blocks.
Proof.
  apply (StateID_length 4 (serving edge_blocks) edge_blocks).
  - reflexivity.
  - repeat constructor; solve_uint32.
  - repeat constructor; solve_uint32.
  - cbn. lia.
Defined.

(** The catalogue [edge_blocks], three Blocks with three IDs. *)
Lemma ByID_lists_every_block_witness :
  exists o, main 4 (serving edge_blocks) = Some o /\
    ByID_of (stdout o) =
      map (fun b => (ID b, ToCamel (serving edge_blocks) (Name b))) edge_blocks /\
    List.length (ByID_of (stdout o)) = List.length edge_blocks /\
    (NoDup (map fst (ByID_of (stdout o))) <-> NoDup (map ID edge_blocks)).
Proof.
  apply (ByID_lists_every_block 4 (serving edge_blocks) edge_blocks).
  - reflexivity.
  - repeat constructor; solve_uint32.
  - repeat constructor; solve_uint32.
  - cbn. lia.
Defined.

(** The overlapping catalogue: both values of the doubled keys are listed. *)
Lemma StateID_values_in_ByID_witness :
  exists o, main 4 (serving overlapping) = Some o /\
    forall s id, In (s, id) (StateID_of (stdout o)) ->
                 exists name, In (id, name) (ByID_of (stdout o)).
Proof.
  apply (StateID_values_in_ByID 4 (serving overlapping) overlapping).
  - reflexivity.
  - repeat constructor; solve_uint32.
  - repeat constructor; solve_uint32.
  - cbn. lia.
Defined.

(** The two-Block catalogue. *)
Lemma ByID_names_are_declared_witness :
  exists o, main 4 (serving two_blocks) = Some o /\
    In (FormatNode (makeBlockDeclaration (serving two_blocks) two_blocks)) (stdout o) /\
    map snd (ByID_of (stdout o)) =
      declared_names (makeBlockDeclaration (serving two_blocks) two_blocks).
Proof.
  apply (ByID_names_are_declared 4 (serving two_blocks) two_blocks).
  - reflexivity.
  - repeat constructor; solve_uint32.
  - repeat constructor; solve_uint32.
  - cbn. lia.
Defined.

(** The overlapping catalogue, where both sides of the equivalence fail. *)
Lemma StateID_keys_distinct_iff_disjoint_witness :
  exists o, main 4 (serving overlapping) = Some o /\
    (NoDup (map fst (StateID_of (stdout o))) <-> ForallOrdPairs disjoint overlapping).
Proof.
  apply (StateID_keys_distinct_iff_disjoint 4 (serving overlapping) overlapping).
  - reflexivity.
  - repeat constructor; solve_uint32.
  - repeat constructor; solve_uint32.
  - cbn. lia.
Defined.

(** In [overlapping] the intervals do meet, at state 2. *)
Example overlapping_not_disjoint : ~ ForallOrdPairs disjoint overlapping.
Proof.
  intros H. inversion H as [|b rest Hb _]; subst.
  inversion Hb as [|c rest' Hc _]; subst.
  apply (Hc 2); solve_uint32.
Qed.

(** X9 (iteration order of [NeedsTools]): whatever order [MapRange] visits
    the entries of a Block's [NeedsTools] map in, as long as it visits each
    entry once, the struct literal of the Block sets the field [NeedsTools]
    to a [map[uint32]bool] literal whose elements are the map's entries up
    to order, one element for each entry. *)
Theorem NeedsTools_literal_up_to_order (env : Env) (b : Block) :
  Permutation (MapRange env (NeedsTools b)) (NeedsTools b) ->
  exists lits elts,
    Values (block_spec env b) = [CompositeLit (Ident "Block") lits] /\
    In (KeyValueExpr (Ident "NeedsTools")
          (CompositeLit (MapType (BasicLit IDENT "uint32") (BasicLit IDENT "bool")) elts))
       lits /\
    Permutation elts (map tool_literal (NeedsTools b)) /\
    List.length elts = List.length (NeedsTools b).
Proof.
  intros Hperm.
  exists (map (fun f => KeyValueExpr (Ident (fst f)) (field_expr env (snd f))) (fields b)).
  exists (map tool_literal (MapRange env (NeedsTools b))).
  split; [reflexivity|]. split; [|split].
  - cbn. do 6 right. left. reflexivity.
  - now apply Permutation_map.
  - rewrite length_map. now apply Permutation_length.
Qed.

(** The run that visits the two entries of the sample map in reverse. *)
Lemma NeedsTools_literal_up_to_order_witness :
  exists lits elts,
    Values (block_spec (serving_reversed two_blocks) (state_block 1 0 3)) =
      [CompositeLit (Ident "Block") lits] /\
    In (KeyValueExpr (Ident "NeedsTools")
          (CompositeLit (MapType (BasicLit IDENT "uint32") (BasicLit IDENT "bool")) elts))
       lits /\
    Permutation elts (map tool_literal (NeedsTools (state_block 1 0 3))) /\
    List.length elts = List.length (NeedsTools (state_block 1 0 3)).
Proof.
  apply (NeedsTools_literal_up_to_order (serving_reversed two_blocks) (state_block 1 0 3)).
  cbn. apply perm_swap.
Defined.

(** X11 (literal against struct): the struct literal [makeBlockDeclaration]
    builds for a Block sets exactly the fields that the [type Block struct]
    of the preamble declares, in the same order, each to a literal of the
    form its declared type is written in. *)
Theorem block_literal_fits_struct (env : Env) (b : Block) :
  exists lits,
    Values (block_spec env b) = [CompositeLit (Ident "Block") lits] /\
    forallb2 sets_field preamble_fields lits = true.
Proof.
  exists (map (fun f => KeyValueExpr (Ident (fst f)) (field_expr env (snd f))) (fields b)).
  split; [reflexivity|].
  destruct b as [id dn nm hd dg dr nt lo hi tr fl el].
  destruct dg, tr; vm_compute; reflexivity.
Qed.

(** X10 (the loop that does not end): with [math.MaxUint32] as upper bound
    the interval loop prints a line in every iteration, and the line of
    iteration [k] is for the state [(i + k) mod 2^32]: after the last state
    it starts again from state 0. *)
Theorem StateID_printed_wraps (fuel : nat) (id : Z) :
  forall i, Uint32.in_range i ->
  List.length (StateID_printed fuel i Uint32.max id) = fuel /\
  forall k, (k < fuel)%nat ->
    nth k (StateID_printed fuel i Uint32.max id) (Println "") =
    StateID_line id ((i + Z.of_nat k) mod Uint32.modulus).
Proof.
  induction fuel as [|fuel IH]; intros i Hi.
  - simpl. destruct (i <=? Uint32.max); split; try reflexivity; intros k Hk; lia.
  - assert ((i <=? Uint32.max) = true) as Hle
      by (apply Z.leb_le; unfold Uint32.in_range in Hi; lia).
    cbn [StateID_printed]. rewrite Hle.
    destruct (IH (Uint32.incr i) (incr_in_range i Hi)) as [Hlen Hnth].
    split; [simpl; now rewrite Hlen|].
    intros [|k] Hk; cbn [nth].
    + rewrite Z.add_0_r. f_equal. symmetry. apply Z.mod_small.
      unfold Uint32.in_range, Uint32.max, Uint32.modulus in *. lia.
    + rewrite Hnth by lia. f_equal. unfold Uint32.incr, Uint32.wrap.
      rewrite Z.add_mod_idemp_l by (unfold Uint32.modulus; lia).
      f_equal. lia.
Qed.

(** The loop over the two topmost states, four iterations long. *)
Lemma StateID_printed_wraps_witness :
  List.length (StateID_printed 4 4294967294 Uint32.max 1) = 4%nat /\
  forall k, (k < 4)%nat ->
    nth k (StateID_printed 4 4294967294 Uint32.max 1) (Println "") =
    StateID_line 1 ((4294967294 + Z.of_nat k) mod Uint32.modulus).
Proof.
  apply (StateID_printed_wraps 4 1 4294967294). solve_uint32.
Defined.
